(** * sharp-cli: the command line front end ([lib/cli.js])

    A shallow embedding of [lib/cli.js]: the option table, the override of
    [cli.parse] that turns the resolved global options into entries at the
    front of the operation queue, and the properties of that construction.

    JavaScript objects used as maps are [gmap string value]; the module-level
    queue is threaded through a small state monad; the closures pushed onto the
    queue are represented by the engine call they perform. *)

From Stdlib Require Import PrimFloat.
From stdpp Require Import gmap strings list.

Set Default Proof Using "Type".

(* ===================================================================== *)
(** * JavaScript values *)
(* ===================================================================== *)

Module JS.

(** The values the parser stores in the arguments object.  Numbers are
    IEEE doubles, as in the language; an array holds the paths given to
    [--input]. *)
Inductive value : Type :=
| VUndefined
| VNull
| VBool (b : bool)
| VNum (x : float)
| VStr (s : string)
| VArr (xs : list string).

(** ToBoolean: [undefined], [null], [false], [0], [-0], [NaN] and the empty
    string are falsy, everything else (every array included) is truthy. *)
Definition truthy (v : value) : bool :=
  match v with
  | VUndefined | VNull => false
  | VBool b => b
  | VNum x => negb (PrimFloat.eqb x 0 || negb (PrimFloat.eqb x x))
  | VStr s => negb (String.eqb s "")
  | VArr _ => true
  end.

(** [a || b]: the left operand when it is truthy, the right one otherwise. *)
Definition logical_or (a b : value) : value := if truthy a then a else b.

(** [undefined !== v] *)
Definition is_undefined (v : value) : bool :=
  match v with VUndefined => true | _ => false end.

(** [v.length]: defined on arrays and strings, [undefined] on booleans and
    numbers.  (On [undefined] and [null] the property access throws; the
    only use below is guarded by the truthiness of [v].) *)
Definition length_of (v : value) : option nat :=
  match v with
  | VArr xs => Some (length xs)
  | VStr s => Some (String.length s)
  | _ => None
  end.

(** [v.length === 0] *)
Definition length_is_zero (v : value) : bool :=
  match length_of v with Some O => true | _ => false end.

(** [new Error(message)] *)
Record Error : Type := MkError { message : string }.

End JS.

Import JS.

(** The arguments object handed to the parse callback. *)
Abbreviation Args := (gmap string value).

(** [args.k]: a missing property reads as [undefined]. *)
Definition arg (args : Args) (k : string) : value := default VUndefined (args !! k).

(* ===================================================================== *)
(** * The image engine and the queue *)
(* ===================================================================== *)

(** The object literals passed to [sharp.jpeg], [sharp.png], [sharp.tiff]
    and [sharp.webp]. *)
Record JpegOptions : Type := {
  jpeg_chromaSubsampling : value;
  jpeg_force : bool;
  jpeg_optimiseScans : value;
  jpeg_overshootDeringing : value;
  jpeg_progressive : value;
  jpeg_quality : value;
  jpeg_trellisQuantisation : value
}.

Record PngOptions : Type := {
  png_adaptiveFiltering : value;
  png_compressionLevel : value;
  png_force : bool;
  png_progressive : value
}.

Record QualityOptions : Type := {
  q_force : bool;
  q_quality : value
}.

(** The second component of a queue entry is a closure [(sharp) => ...].
    Each closure of [lib/cli.js] performs exactly one call on the image
    handle, so a closure is represented by that call and its arguments.
    The closures read [args] when they run; [args] is not written to after
    resolution, so the values are those read when the entry is built. *)
Inductive Operation : Type :=
| ToFormat (format : value)
| Jpeg (o : JpegOptions)
| LimitInputPixels (limit : value)
| Png (o : PngOptions)
| SequentialRead
| Tiff (o : QualityOptions)
| Webp (o : QualityOptions)
| WithMetadata.

(** The methods of the image handle that the closures call. *)
Class Sharp (H : Type) : Type := {
  toFormat : value → H → H;
  jpeg : JpegOptions → H → H;
  limitInputPixels : value → H → H;
  png : PngOptions → H → H;
  sequentialRead : H → H;
  tiff : QualityOptions → H → H;
  webp : QualityOptions → H → H;
  withMetadata : H → H
}.

(** Calling the closure on an image handle. *)
Definition call `{Sharp H} (op : Operation) (sharp : H) : H :=
  match op with
  | ToFormat f => toFormat f sharp
  | Jpeg o => jpeg o sharp
  | LimitInputPixels n => limitInputPixels n sharp
  | Png o => png o sharp
  | SequentialRead => sequentialRead sharp
  | Tiff o => tiff o sharp
  | Webp o => webp o sharp
  | WithMetadata => withMetadata sharp
  end.

Module Queue.

(** A queue entry: [[ label, closure ]]. *)
Definition Entry : Type := string * Operation.

(** Modelled from the spec: [lib/queue.js] is required by [lib/cli.js] but
    is not among the sources.  Following the data model of the spec, the
    queue is one ordered mutable list of entries shared by the command
    handlers and the parse override, with insert-at-front ([unshift]) and
    append-to-end ([push]). *)
Abbreviation t := (list Entry).

Definition unshift (e : Entry) (q : t) : t := e :: q.
Definition push (e : Entry) (q : t) : t := q ++ [e].

(** The labels of the entries, front to back. *)
Definition labels (q : t) : list string := q.*1.

End Queue.

(** ** Statements that read and write the shared queue *)

Definition M (A : Type) : Type := Queue.t → A * Queue.t.

#[global] Instance M_ret : MRet M := λ A (a : A) q, (a, q).
#[global] Instance M_bind : MBind M :=
  λ A B (k : A → M B) (m : M A) q, let '(a, q') := m q in k a q'.

(** [queue.unshift(e)]; the new length it returns is discarded by every
    caller. *)
Definition unshift (e : Queue.Entry) : M unit := λ q, (tt, Queue.unshift e q).

(** [if (c) { body }] *)
Definition when (c : bool) (body : M unit) : M unit :=
  if c then body else mret tt.

(** The queue after running [m] from [q], and the value [m] returns. *)
Definition exec {A} (m : M A) (q : Queue.t) : Queue.t := (m q).2.
Definition eval {A} (m : M A) (q : Queue.t) : A := (m q).1.

(* ===================================================================== *)
(** * The option table *)
(* ===================================================================== *)

Module Options.

Inductive OptionType : Type := TArray | TBoolean | TNumber | TString.

(** The fields of an option declaration that the parser acts on.  The help
    texts ([desc], [defaultDescription], [choices]) are left out; every
    option has [global: true]. *)
Record Descriptor : Type := {
  alias : option string;
  demand : bool;
  group : string;
  implies : option string;
  nargs : option nat;
  normalize : bool;
  type : option OptionType
}.

Definition _global : string := "Global Options".
Definition optimize : string := "Optimization Options".

(** The object [options], in the order its properties are written.
    [IS_TEXT_TERMINAL] is [process.stdin.isTTY]. *)
Definition options (IS_TEXT_TERMINAL : bool) : list (string * Descriptor) :=
  [ ("compressionLevel",
     {| alias := Some "c"; demand := false; group := _global; implies := None;
        nargs := Some 1; normalize := false; type := Some TNumber |});
    ("format",
     {| alias := Some "f"; demand := false; group := _global; implies := None;
        nargs := Some 1; normalize := false; type := None |});
    ("input",
     {| alias := Some "i"; demand := IS_TEXT_TERMINAL; group := _global;
        implies := Some "output"; nargs := None; normalize := true;
        type := Some TArray |});
    ("limitInputPixels",
     {| alias := Some "l"; demand := false; group := _global; implies := None;
        nargs := Some 1; normalize := false; type := Some TNumber |});
    ("output",
     {| alias := Some "o"; demand := IS_TEXT_TERMINAL; group := _global;
        implies := None; nargs := Some 1; normalize := true;
        type := Some TString |});
    ("progressive",
     {| alias := Some "p"; demand := false; group := _global; implies := None;
        nargs := None; normalize := false; type := Some TBoolean |});
    ("quality",
     {| alias := Some "q"; demand := false; group := _global; implies := None;
        nargs := Some 1; normalize := false; type := Some TNumber |});
    ("withMetadata",
     {| alias := Some "m"; demand := false; group := _global; implies := None;
        nargs := None; normalize := false; type := Some TBoolean |});
    ("adaptiveFiltering",
     {| alias := None; demand := false; group := optimize; implies := None;
        nargs := None; normalize := false; type := Some TBoolean |});
    ("chromaSubsampling",
     {| alias := None; demand := false; group := optimize; implies := None;
        nargs := Some 1; normalize := false; type := Some TString |});
    ("optimise",
     {| alias := Some "optimize"; demand := false; group := optimize;
        implies := None; nargs := None; normalize := false;
        type := Some TBoolean |});
    ("optimiseScans",
     {| alias := Some "optimizeScans"; demand := false; group := optimize;
        implies := Some "progressive"; nargs := None; normalize := false;
        type := Some TBoolean |});
    ("overshootDeringing",
     {| alias := None; demand := false; group := optimize; implies := None;
        nargs := None; normalize := false; type := Some TBoolean |});
    ("sequentialRead",
     {| alias := None; demand := false; group := optimize; implies := None;
        nargs := None; normalize := false; type := Some TBoolean |});
    ("trellisQuantisation",
     {| alias := None; demand := false; group := optimize; implies := None;
        nargs := None; normalize := false; type := Some TBoolean |}) ].

(** The names of the declared options. *)
Definition names : list string := (options false).*1.

(** The declared type of an option. *)
Definition type_of (k : string) : option OptionType :=
  d ← (list_to_map (options false) : gmap string Descriptor) !! k; type d.

End Options.

(* ===================================================================== *)
(** * The argument resolver (external parser) *)
(* ===================================================================== *)

Module Resolver.

(** Modelled from the spec: the Resolved Arguments are "a mapping from
    option name to its parsed value".  The parser that builds them from the
    command line is an external package; here the flags that were given,
    each with its parsed value, are collected into the mapping. *)
Definition resolved (flags : list (string * value)) : Args := list_to_map flags.

(** An option was supplied when the arguments hold a value for it; [false]
    held for an option declared boolean counts as not supplied (a parser
    that fills in [false] for absent boolean flags and one that leaves them
    out are both covered). *)
Definition supplied (args : Args) (k : string) : bool :=
  match arg args k with
  | VUndefined => false
  | VBool false =>
      match Options.type_of k with Some Options.TBoolean => false | _ => true end
  | _ => true
  end.

Definition not_supplied (args : Args) (k : string) : Prop :=
  supplied args k = false.

(** Only the options [ks] were supplied. *)
Definition only_supplied (ks : list string) (args : Args) : Prop :=
  ∀ k, k ∈ Options.names → k ∉ ks → not_supplied args k.

(** The error kinds of the spec that concern resolution. *)
Inductive ErrorKind : Type := ParseError | ValidationError.

(** The result of resolution: the Resolved Arguments, or an error and no
    arguments. *)
Inductive Resolution : Type :=
| Resolved (args : Args)
| Failed (kind : ErrorKind) (err : Error).

(** The pairs [(A, B)] with [A] declaring [implies: B], [A] supplied and
    [B] not. *)
Definition unmet_implications
    (opts : list (string * Options.Descriptor)) (args : Args) : list (string * string) :=
  omap (λ '(a, d),
          match Options.implies d with
          | Some b => if supplied args a && negb (supplied args b)
                      then Some (a, b) else None
          | None => None
          end) opts.

(** Modelled from the spec: the [implies] rule of the Argument Resolver,
    which the external parser enforces: "if option A declares [implies: B],
    supplying A without B is a hard error", reported as a ValidationError. *)
Definition check_implications
    (opts : list (string * Options.Descriptor)) (args : Args) : Resolution :=
  match unmet_implications opts args with
  | [] => Resolved args
  | (a, b) :: _ =>
      Failed ValidationError (MkError ("Implications failed: " +:+ a +:+ " -> " +:+ b))
  end.

End Resolver.

(* ===================================================================== *)
(** * The override of [cli.parse] *)
(* ===================================================================== *)

Module Cli.

(** The conditions of the [if] statements, in the order they are written. *)
Definition format_trigger (args : Args) : bool := truthy (arg args "format").

Definition jpeg_trigger (args : Args) : bool :=
  truthy
    (JS.logical_or (JS.logical_or (JS.logical_or (JS.logical_or (JS.logical_or (JS.logical_or
       (arg args "chromaSubsampling")
       (arg args "optimise"))
       (arg args "optimiseScans"))
       (arg args "overshootDeringing"))
       (arg args "progressive"))
       (arg args "quality"))
       (arg args "trellisQuantisation")).

Definition limitInputPixels_trigger (args : Args) : bool :=
  negb (is_undefined (arg args "limitInputPixels")).

Definition png_trigger (args : Args) : bool :=
  truthy
    (JS.logical_or (JS.logical_or
       (arg args "adaptiveFiltering")
       (arg args "compressionLevel"))
       (arg args "progressive")).

Definition sequentialRead_trigger (args : Args) : bool :=
  truthy (arg args "sequentialRead").

Definition quality_trigger (args : Args) : bool := truthy (arg args "quality").

Definition withMetadata_trigger (args : Args) : bool :=
  truthy (arg args "withMetadata").

(** The object literals built for the encoders. *)
Definition jpeg_options (args : Args) : JpegOptions :=
  {| jpeg_chromaSubsampling := arg args "chromaSubsampling";
     jpeg_force := false;
     jpeg_optimiseScans := JS.logical_or (arg args "optimise") (arg args "optimiseScans");
     jpeg_overshootDeringing :=
       JS.logical_or (arg args "optimise") (arg args "overshootDeringing");
     jpeg_progressive := arg args "progressive";
     jpeg_quality := arg args "quality";
     jpeg_trellisQuantisation :=
       JS.logical_or (arg args "optimise") (arg args "trellisQuantisation") |}.

Definition png_options (args : Args) : PngOptions :=
  {| png_adaptiveFiltering := arg args "adaptiveFiltering";
     png_compressionLevel := arg args "compressionLevel";
     png_force := false;
     png_progressive := arg args "progressive" |}.

Definition quality_options (args : Args) : QualityOptions :=
  {| q_force := false; q_quality := arg args "quality" |}.

(** The entries. *)
Definition format_entry (args : Args) : Queue.Entry :=
  ("format", ToFormat (arg args "format")).
Definition jpeg_entry (args : Args) : Queue.Entry :=
  ("jpeg", Jpeg (jpeg_options args)).
Definition limitInputPixels_entry (args : Args) : Queue.Entry :=
  ("limitInputPixels", LimitInputPixels (arg args "limitInputPixels")).
Definition png_entry (args : Args) : Queue.Entry :=
  ("png", Png (png_options args)).
Definition sequentialRead_entry : Queue.Entry :=
  ("sequentialRead", SequentialRead).
Definition tiff_entry (args : Args) : Queue.Entry :=
  ("tiff", Tiff (quality_options args)).
Definition webp_entry (args : Args) : Queue.Entry :=
  ("webp", Webp (quality_options args)).
Definition withMetadata_entry : Queue.Entry :=
  ("withMetadata", WithMetadata).

(** The block "Global Options" of the parse callback: one [queue.unshift]
    per triggered option, in the order of the statements. *)
Definition global_options (args : Args) : M unit :=
  when (format_trigger args) (unshift (format_entry args));;
  when (jpeg_trigger args) (unshift (jpeg_entry args));;
  when (limitInputPixels_trigger args) (unshift (limitInputPixels_entry args));;
  when (png_trigger args) (unshift (png_entry args));;
  when (sequentialRead_trigger args) (unshift sequentialRead_entry);;
  when (quality_trigger args)
    (unshift (tiff_entry args);; unshift (webp_entry args));;
  when (withMetadata_trigger args) (unshift withMetadata_entry).

(** [args.input && args.input.length === 0] *)
Definition input_is_empty (args : Args) : bool :=
  truthy (arg args "input") && length_is_zero (arg args "input").

(** The body of the callback given to the original [parse], up to the call
    of the user's callback: [err] and [args] are what the parser reports
    ([None] for [null]); the result is the [err] passed on. *)
Definition handle_arguments (err : option Error) (args : option Args)
    : M (option Error) :=
  match args with
  | None => mret err
  | Some args =>
      let err :=
        if input_is_empty args
        then Some (MkError "Not enough arguments following: i, input")
        else err in
      global_options args;;
      mret err
  end.

Section parse.

Context {R Output : Type}.

(** [(err, args, output) => ...] *)
Definition Callback : Type := option Error → option Args → Output → M R.

(** [context] is optional: the second argument may be the callback. *)
Inductive ContextArgument : Type :=
| IsObject (context : option Args)
| IsFunction (callback : Callback).

(** The parser's own [parse], which runs the command handlers (they push
    onto the queue) and then calls back. *)
Variable originalParse : list string → option Args → Callback → M R.

Definition parse (argv : list string) (context : ContextArgument)
    (callback : Callback) : M R :=
  let '(context, callback) :=
    match context with
    | IsFunction f => (None, f)
    | IsObject c => (c, callback)
    end in
  originalParse argv context
    (λ err args output,
       err ← handle_arguments err args;
       callback err args output).

End parse.

(** The entries that the global options of [args] put in front of the
    queue: the queue built from an empty one. *)
Definition global_prefix (args : Args) : Queue.t := exec (global_options args) [].

(** The list of section 4.4 of the spec, "head-to-tail of the
    resulting prefix", by label. *)
Definition section_4_4_order : list string :=
  [ "format"; "jpeg"; "limitInputPixels"; "png"; "sequentialRead"; "tiff";
    "webp"; "withMetadata" ].

(** Every label with the condition that triggers it, in the order of the
    statements of the callback (which is the order of section 4.4). *)
Definition triggers (args : Args) : list (string * bool) :=
  [ ("format", format_trigger args);
    ("jpeg", jpeg_trigger args);
    ("limitInputPixels", limitInputPixels_trigger args);
    ("png", png_trigger args);
    ("sequentialRead", sequentialRead_trigger args);
    ("tiff", quality_trigger args);
    ("webp", quality_trigger args);
    ("withMetadata", withMetadata_trigger args) ].

(** [xs] lists some of the elements of [order], in the order they have in
    [order]. *)
Fixpoint in_relative_order (xs order : list string) : bool :=
  match xs, order with
  | [], _ => true
  | _ :: _, [] => false
  | x :: xs', o :: order' =>
      if String.eqb x o then in_relative_order xs' order'
      else in_relative_order xs order'
  end.

End Cli.

Import Cli.

(* ===================================================================== *)
(** * What the parser is configured with, and what the callback reads *)
(* ===================================================================== *)

Module Schema.

(** [.help().alias('help', 'h')] and
    [.version(pkg.version).alias('version', 'v')]: the built-in options,
    each with its alias. *)
Definition builtin : list (string * string) := [("help", "h"); ("version", "v")].

(** The aliases declared in the option table. *)
Definition aliases (IS_TEXT_TERMINAL : bool) : list string :=
  omap (λ o, Options.alias o.2) (Options.options IS_TEXT_TERMINAL).

(** Every name declared for an option: the keys of the table, their
    aliases, and the built-in options with theirs. *)
Definition declared (IS_TEXT_TERMINAL : bool) : list string :=
  (Options.options IS_TEXT_TERMINAL).*1 ++ aliases IS_TEXT_TERMINAL
  ++ builtin.*1 ++ builtin.*2.

(** The options declared with [demand] set. *)
Definition demanded (IS_TEXT_TERMINAL : bool) : list string :=
  (filter (λ o, Options.demand o.2 = true) (Options.options IS_TEXT_TERMINAL)).*1.

(** The pairs [(A, B)] with [A] declared [implies: B]. *)
Definition implications (IS_TEXT_TERMINAL : bool) : list (string * string) :=
  omap (λ o, (o.1,.) <$> Options.implies o.2) (Options.options IS_TEXT_TERMINAL).

(** The properties of [args] that the block "Global Options" tests for
    truthiness in the conditions of its [if] statements, in the order they
    are first read. *)
Definition triggering : list string :=
  [ "format"; "chromaSubsampling"; "optimise"; "optimiseScans";
    "overshootDeringing"; "progressive"; "quality"; "trellisQuantisation";
    "adaptiveFiltering"; "compressionLevel"; "sequentialRead"; "withMetadata" ].

(** Every property of [args] that the callback reads: [input], those
    above, and [limitInputPixels], which is compared with [undefined]. *)
Definition inspected : list string :=
  "input" :: triggering ++ ["limitInputPixels"].

(** Two arguments objects hold the same value under every name of [ks]. *)
Definition agree_on (ks : list string) (args args' : Args) : Prop :=
  ∀ k, k ∈ ks → arg args k = arg args' k.

End Schema.

(* ===================================================================== *)
(** * Properties *)
(* ===================================================================== *)

(** ** Values *)

Lemma truthy_logical_or (a b : value) :
  truthy (JS.logical_or a b) = truthy a || truthy b.
Proof. unfold JS.logical_or. destruct (truthy a) eqn:Ha; [exact Ha | reflexivity]. Qed.

Lemma logical_or_truthy_l (a b : value) :
  truthy a = true → JS.logical_or a b = a.
Proof. unfold JS.logical_or. intros ->. reflexivity. Qed.

Lemma logical_or_falsy_l (a b : value) :
  truthy a = false → JS.logical_or a b = b.
Proof. unfold JS.logical_or. intros ->. reflexivity. Qed.

Lemma arg_insert_eq (args : Args) (k : string) (v : value) :
  arg (<[k := v]> args) k = v.
Proof. unfold arg. by rewrite lookup_insert_eq. Qed.

Lemma arg_insert_ne (args : Args) (k k' : string) (v : value) :
  k ≠ k' → arg (<[k := v]> args) k' = arg args k'.
Proof. intros Hne. unfold arg. by rewrite lookup_insert_ne. Qed.

(** ** The triggers as disjunctions *)

Lemma jpeg_trigger_alt (args : Args) :
  jpeg_trigger args =
    truthy (arg args "chromaSubsampling") || truthy (arg args "optimise")
    || truthy (arg args "optimiseScans") || truthy (arg args "overshootDeringing")
    || truthy (arg args "progressive") || truthy (arg args "quality")
    || truthy (arg args "trellisQuantisation").
Proof. unfold jpeg_trigger. by rewrite !truthy_logical_or. Qed.

Lemma png_trigger_alt (args : Args) :
  png_trigger args =
    truthy (arg args "adaptiveFiltering") || truthy (arg args "compressionLevel")
    || truthy (arg args "progressive").
Proof. unfold png_trigger. by rewrite !truthy_logical_or. Qed.

(** ** The shape of the prefix *)

(** Abstract the seven conditions and split on them. *)
Ltac split_triggers args :=
  generalize (format_trigger args) (jpeg_trigger args)
    (limitInputPixels_trigger args) (png_trigger args)
    (sequentialRead_trigger args) (quality_trigger args)
    (withMetadata_trigger args);
  intros [] [] [] [] [] [] [].

(** The prefix, front to back: the last statement of the callback that
    fires puts its entry at the very front. *)
Lemma global_prefix_eq (args : Args) :
  global_prefix args =
    (if withMetadata_trigger args then [withMetadata_entry] else [])
    ++ (if quality_trigger args then [webp_entry args; tiff_entry args] else [])
    ++ (if sequentialRead_trigger args then [sequentialRead_entry] else [])
    ++ (if png_trigger args then [png_entry args] else [])
    ++ (if limitInputPixels_trigger args then [limitInputPixels_entry args] else [])
    ++ (if jpeg_trigger args then [jpeg_entry args] else [])
    ++ (if format_trigger args then [format_entry args] else []).
Proof.
  unfold global_prefix, global_options, exec.
  split_triggers args; reflexivity.
Qed.

(** Whatever the queue holds already stays behind the prefix, untouched. *)
Lemma global_options_prepends (args : Args) (q : Queue.t) :
  exec (global_options args) q = global_prefix args ++ q.
Proof.
  unfold global_prefix, global_options, exec.
  split_triggers args; reflexivity.
Qed.

Lemma global_prefix_labels (args : Args) :
  Queue.labels (global_prefix args)
  = reverse (filter (λ t, t.2 = true) (triggers args)).*1.
Proof.
  rewrite global_prefix_eq. unfold triggers.
  split_triggers args; reflexivity.
Qed.

(** ** Relative order *)

Lemma in_relative_order_sublist (xs order : list string) :
  in_relative_order xs order = true ↔ xs `sublist_of` order.
Proof.
  revert xs. induction order as [|o order IH]; intros xs.
  - destruct xs as [|x xs]; simpl.
    + split; [intros _; constructor | reflexivity].
    + split; [discriminate | intros H; inversion H].
  - destruct xs as [|x xs]; simpl.
    + split; [intros _; apply sublist_nil_l | reflexivity].
    + destruct (String.eqb_spec x o) as [->|Hne].
      * rewrite IH. split.
        -- intros H. by constructor.
        -- intros H. apply sublist_cons_r in H as [H' | (l' & [= <-] & H')]; [|done].
           etrans; [|exact H']. apply sublist_cons. reflexivity.
      * rewrite IH. split.
        -- intros H. by constructor.
        -- intros H. apply sublist_cons_r in H as [H' | (l' & [= -> ] & H')]; done.
Qed.

(** ** Options that were not supplied *)

Lemma not_supplied_falsy (args : Args) (k : string) :
  Resolver.not_supplied args k → truthy (arg args k) = false.
Proof.
  unfold Resolver.not_supplied, Resolver.supplied.
  destruct (arg args k) as [| |[]| | |]; try discriminate; reflexivity.
Qed.

Lemma not_supplied_undefined (args : Args) (k : string) :
  Options.type_of k ≠ Some Options.TBoolean →
  Resolver.not_supplied args k → arg args k = VUndefined.
Proof.
  unfold Resolver.not_supplied, Resolver.supplied. intros Hty.
  destruct (arg args k) as [| |[]| | |]; try discriminate; try reflexivity.
  destruct (Options.type_of k) as [[]|]; try discriminate. by destruct Hty.
Qed.

Lemma only_supplied_falsy (ks : list string) (args : Args) (k : string) :
  Resolver.only_supplied ks args →
  bool_decide (k ∈ Options.names) = true → bool_decide (k ∈ ks) = false →
  truthy (arg args k) = false.
Proof.
  intros Honly Hin Hout. apply not_supplied_falsy, Honly.
  - by apply bool_decide_eq_true in Hin.
  - by apply bool_decide_eq_false in Hout.
Qed.

Lemma only_supplied_undefined (ks : list string) (args : Args) (k : string) :
  Resolver.only_supplied ks args →
  bool_decide (k ∈ Options.names) = true → bool_decide (k ∈ ks) = false →
  Options.type_of k ≠ Some Options.TBoolean →
  arg args k = VUndefined.
Proof.
  intros Honly Hin Hout Hty. apply not_supplied_undefined; [done|]. apply Honly.
  - by apply bool_decide_eq_true in Hin.
  - by apply bool_decide_eq_false in Hout.
Qed.

(** Rewrite the reads of an updated arguments object. *)
Ltac read_args :=
  repeat first
    [ rewrite arg_insert_eq
    | rewrite arg_insert_ne by discriminate ].

(** ** Which labels the prefix holds *)

Lemma label_in_global_prefix (args : Args) (l : string) :
  l ∈ Queue.labels (global_prefix args) ↔ (l, true) ∈ triggers args.
Proof.
  rewrite global_prefix_labels, elem_of_reverse, list_elem_of_fmap. split.
  - intros ([l' b] & -> & [Hb Hin]%list_elem_of_filter). simpl in *. by subst b.
  - intros Hin. exists (l, true). split; [done|]. by apply list_elem_of_filter.
Qed.

(** One label of the prefix against its trigger. *)
Ltac label_membership :=
  rewrite label_in_global_prefix; unfold triggers;
  rewrite !elem_of_cons, elem_of_nil;
  split;
  [ let H := fresh in
    intros H; repeat (destruct H as [H|H]);
    by simplify_eq
  | intros ->; auto 10 ].


Lemma jpeg_in_global_prefix (args : Args) :
  "jpeg" ∈ Queue.labels (global_prefix args) ↔ jpeg_trigger args = true.
Proof. label_membership. Qed.

Lemma limitInputPixels_in_global_prefix (args : Args) :
  "limitInputPixels" ∈ Queue.labels (global_prefix args)
  ↔ limitInputPixels_trigger args = true.
Proof. label_membership. Qed.

Lemma png_in_global_prefix (args : Args) :
  "png" ∈ Queue.labels (global_prefix args) ↔ png_trigger args = true.
Proof. label_membership. Qed.

Lemma tiff_in_global_prefix (args : Args) :
  "tiff" ∈ Queue.labels (global_prefix args) ↔ quality_trigger args = true.
Proof. label_membership. Qed.

Lemma webp_in_global_prefix (args : Args) :
  "webp" ∈ Queue.labels (global_prefix args) ↔ quality_trigger args = true.
Proof. label_membership. Qed.

(** The callback adds the prefix whenever it is handed an arguments object,
    whatever error comes with it. *)
Lemma handle_arguments_exec (err : option Error) (args : Args) (q : Queue.t) :
  exec (handle_arguments err (Some args)) q = global_prefix args ++ q.
Proof.
  rewrite <- global_options_prepends. unfold handle_arguments, exec.
  simpl. unfold mbind, M_bind. by destruct (global_options args q).
Qed.

Lemma handle_arguments_eval (err : option Error) (args : Args) (q : Queue.t) :
  eval (handle_arguments err (Some args)) q =
    if input_is_empty args
    then Some (MkError "Not enough arguments following: i, input")
    else err.
Proof.
  unfold handle_arguments, eval. simpl. unfold mbind, M_bind.
  by destruct (global_options args q).
Qed.

(** ** The override as a whole *)

(** When the parser runs the command handlers (which change the queue from
    [q] to [handlers q]) and then calls back with resolved arguments, and
    the user's callback leaves the queue alone, the queue after [parse] is
    the global prefix followed by what the handlers left. *)
Lemma parse_queue {R Output : Type}
    (originalParse : list string → option Args → @Callback R Output → M R)
    (argv : list string) (context : option Args) (callback : @Callback R Output)
    (err : option Error) (args : Args) (output : Output)
    (handlers : Queue.t → Queue.t) (q : Queue.t) :
  (∀ cb q, originalParse argv context cb q = cb err (Some args) output (handlers q)) →
  (∀ e a o q, exec (callback e a o) q = q) →
  exec (parse originalParse argv (IsObject context) callback) q
  = global_prefix args ++ handlers q.
Proof.
  intros Hparse Hcb. unfold parse, exec. rewrite Hparse.
  unfold mbind, M_bind.
  pose proof (handle_arguments_exec err args (handlers q)) as Hq.
  unfold exec in Hq.
  destruct (handle_arguments err (Some args) (handlers q)) as [err' q'].
  simpl in Hq. subst q'. apply Hcb.
Qed.

(* ===================================================================== *)
(** * The specification, property by property *)
(* ===================================================================== *)

(** ** C1: the order of the global prefix *)

(** C1, as stated, fails.  With an output format and the metadata toggle
    both requested, the prefix holds the metadata entry in front of the
    format entry: the labels are not in the order of section 4.4, where the
    format override is item 1 and the metadata toggle item 8. *)
Lemma C1_counterexample :
  let args : Args := <["format" := VStr "png"]> {["withMetadata" := VBool true]} in
  Queue.labels (global_prefix args) = ["withMetadata"; "format"] ∧
  ¬ Queue.labels (global_prefix args) `sublist_of` section_4_4_order.
Proof.
  split; [reflexivity|].
  intros H%in_relative_order_sublist. vm_compute in H. discriminate H.
Qed.

(** C1 (amended): after the callback has run on resolved arguments, the
    queue is the global prefix followed by what the queue held before; the
    labels of the prefix, front to back, are those of the triggered options
    in the REVERSE of the order of section 4.4 (metadata, WEBP, TIFF,
    sequential read, PNG, pixel limit, JPEG, format); and the prefix does
    not depend on the order in which the flags were given. *)
Theorem C1_global_prefix_order (args : Args) (q : Queue.t) :
  exec (global_options args) q = global_prefix args ++ q ∧
  Queue.labels (global_prefix args)
    = reverse (filter (λ t, t.2 = true) (triggers args)).*1 ∧
  Queue.labels (global_prefix args) `sublist_of` reverse section_4_4_order ∧
  ∀ flags flags' : list (string * value),
    NoDup flags.*1 → flags ≡ₚ flags' →
    global_prefix (Resolver.resolved flags')
    = global_prefix (Resolver.resolved flags).
Proof.
  split_and!.
  - apply global_options_prepends.
  - apply global_prefix_labels.
  - apply in_relative_order_sublist.
    rewrite global_prefix_labels. unfold triggers.
    split_triggers args; reflexivity.
  - intros flags flags' Hnd Hperm. unfold Resolver.resolved.
    by rewrite (list_to_map_proper flags flags' Hnd Hperm).
Qed.

(** C1 at work: quality and format given in either order. *)
Lemma C1_global_prefix_order_witness :
  let flags := [("quality", VNum 90); ("format", VStr "png")] in
  let flags' := [("format", VStr "png"); ("quality", VNum 90)] in
  NoDup flags.*1 ∧ flags ≡ₚ flags' ∧
  global_prefix (Resolver.resolved flags') = global_prefix (Resolver.resolved flags).
Proof.
  assert (Hnd : NoDup [("quality", VNum 90); ("format", VStr "png")].*1)
    by (apply (bool_decide_unpack _); vm_compute; exact I).
  assert (Hperm : [("quality", VNum 90); ("format", VStr "png")]
                  ≡ₚ [("format", VStr "png"); ("quality", VNum 90)])
    by apply perm_swap.
  split_and!; [exact Hnd | exact Hperm |].
  exact (proj2 (proj2 (proj2 (C1_global_prefix_order ∅ []))) _ _ Hnd Hperm).
Defined.

(** ** C2: quality alone, and quality with progressive *)

(** C2, as stated, fails.  With quality 90 alone the queue has three
    entries, not two: quality is itself one of the JPEG triggers, so the
    JPEG entry is there. *)
Lemma C2_counterexample :
  let args : Args := {["quality" := VNum 90]} in
  let q := exec (global_options args) [] in
  Queue.labels q = ["webp"; "tiff"; "jpeg"] ∧
  ¬ (length q = 2 ∧ "jpeg" ∉ Queue.labels q).
Proof.
  split; [reflexivity|]. intros [Hlen _]. vm_compute in Hlen. discriminate Hlen.
Qed.

(** C2 (amended): resolving a command line that supplies only quality 90
    (with or without input and output) and no sub-commands gives a queue of
    exactly three entries, front to back WEBP, TIFF and JPEG, and no PNG
    entry; with progressive as well the queue is WEBP, TIFF, PNG, JPEG. *)
Theorem C2_quality_alone (args : Args) :
  arg args "quality" = VNum 90 →
  Resolver.only_supplied ["quality"; "input"; "output"] args →
  let args' : Args := <["progressive" := VBool true]> args in
  exec (global_options args) []
    = [webp_entry args; tiff_entry args; jpeg_entry args] ∧
  Queue.labels (exec (global_options args) []) = ["webp"; "tiff"; "jpeg"] ∧
  exec (global_options args') []
    = [webp_entry args'; tiff_entry args'; png_entry args'; jpeg_entry args'] ∧
  Queue.labels (exec (global_options args') [])
    = ["webp"; "tiff"; "png"; "jpeg"].
Proof.
  intros Hq Honly args'.
  assert (Hf : ∀ k, bool_decide (k ∈ Options.names) = true →
               bool_decide (k ∈ ["quality"; "input"; "output"]) = false →
               truthy (arg args k) = false)
    by (intros k; apply only_supplied_falsy, Honly).
  assert (Hl : arg args "limitInputPixels" = VUndefined)
    by (by apply (only_supplied_undefined _ _ _ Honly)).
  assert (Hfmt : format_trigger args = false) by (by apply Hf).
  assert (Hseq : sequentialRead_trigger args = false) by (by apply Hf).
  assert (Hmeta : withMetadata_trigger args = false) by (by apply Hf).
  assert (Hlim : limitInputPixels_trigger args = false)
    by (unfold limitInputPixels_trigger; by rewrite Hl).
  assert (Hqual : quality_trigger args = true)
    by (unfold quality_trigger; by rewrite Hq).
  assert (Hjpeg : jpeg_trigger args = true).
  { rewrite jpeg_trigger_alt, Hq. simpl. by rewrite !orb_true_r. }
  assert (Hpng : png_trigger args = false).
  { rewrite png_trigger_alt, !Hf; done. }
  assert (Hfmt' : format_trigger args' = false)
    by (unfold format_trigger, args'; read_args; exact Hfmt).
  assert (Hseq' : sequentialRead_trigger args' = false)
    by (unfold sequentialRead_trigger, args'; read_args; exact Hseq).
  assert (Hmeta' : withMetadata_trigger args' = false)
    by (unfold withMetadata_trigger, args'; read_args; exact Hmeta).
  assert (Hlim' : limitInputPixels_trigger args' = false)
    by (unfold limitInputPixels_trigger, args'; read_args; exact Hlim).
  assert (Hqual' : quality_trigger args' = true)
    by (unfold quality_trigger, args'; read_args; exact Hqual).
  assert (Hjpeg' : jpeg_trigger args' = true).
  { rewrite jpeg_trigger_alt. unfold args'. read_args. simpl.
    by rewrite !orb_true_r. }
  assert (Hpng' : png_trigger args' = true).
  { rewrite png_trigger_alt. unfold args'. read_args. simpl.
    by rewrite !orb_true_r. }
  rewrite !global_options_prepends, !global_prefix_eq.
  rewrite Hfmt, Hseq, Hmeta, Hlim, Hqual, Hjpeg, Hpng.
  rewrite Hfmt', Hseq', Hmeta', Hlim', Hqual', Hjpeg', Hpng'.
  done.
Qed.

(** C2 at work on the arguments that hold quality 90 and nothing else. *)
Lemma C2_quality_alone_witness :
  let args : Args := {["quality" := VNum 90]} in
  Queue.labels (exec (global_options args) []) = ["webp"; "tiff"; "jpeg"] ∧
  Queue.labels (exec (global_options (<["progressive" := VBool true]> args)) [])
    = ["webp"; "tiff"; "png"; "jpeg"].
Proof.
  intros args.
  assert (Hq : arg args "quality" = VNum 90) by reflexivity.
  assert (Honly : Resolver.only_supplied ["quality"; "input"; "output"] args).
  { intros k Hk Hnot. unfold Options.names in Hk. simpl in Hk.
    repeat (apply elem_of_cons in Hk as [-> | Hk]; [try reflexivity|]).
    all: try (by apply elem_of_nil in Hk).
    all: exfalso; apply Hnot; set_solver. }
  destruct (C2_quality_alone args Hq Honly) as (_ & H1 & _ & H2).
  exact (conj H1 H2).
Defined.

(** ** C3: the queue when resolution fails *)

(** C3, as stated, fails.  The command line gives [--input] with no path:
    the callback reports the hard error, and all the same prepends the
    entries of the quality option to the queue, which was empty. *)
Lemma C3_counterexample :
  let args : Args :=
    <["input" := VArr []]> (<["output" := VStr "./out"]> {["quality" := VNum 90]}) in
  eval (handle_arguments None (Some args)) []
    = Some (MkError "Not enough arguments following: i, input") ∧
  Queue.labels (exec (handle_arguments None (Some args)) [])
    = ["webp"; "tiff"; "jpeg"] ∧
  exec (handle_arguments None (Some args)) [] ≠ [].
Proof. split_and!; [reflexivity | reflexivity | discriminate]. Qed.

(** C3 (amended): what guards queue construction is the presence of the
    arguments object, not the absence of an error.  When the parser hands
    the callback no arguments object, the queue is left unchanged; when it
    hands one over, the global entries it triggers are prepended to the
    queue whether or not an error is reported with it, the
    explicit-but-empty input error included. *)
Theorem C3_queue_guard_is_args (err : option Error) (q : Queue.t) :
  exec (handle_arguments err None) q = q ∧
  eval (handle_arguments err None) q = err ∧
  ∀ args : Args,
    exec (handle_arguments err (Some args)) q = global_prefix args ++ q.
Proof.
  split_and!; [reflexivity | reflexivity |].
  intros args. apply handle_arguments_exec.
Qed.

(** ** C4: WEBP in front of TIFF *)

(** C4, as stated, fails.  Quality is supplied, with the value 0: neither
    the WEBP nor the TIFF entry is in the queue. *)
Lemma C4_counterexample :
  let args : Args := {["quality" := VNum 0]} in
  Resolver.supplied args "quality" = true ∧
  global_prefix args = [] ∧
  ¬ ("webp" ∈ Queue.labels (global_prefix args)
     ∧ "tiff" ∈ Queue.labels (global_prefix args)).
Proof.
  split_and!; [reflexivity | reflexivity |].
  intros [H _]. vm_compute in H. by apply elem_of_nil in H.
Qed.

(** C4 (amended): whenever quality is supplied with a truthy value (a
    number other than 0 and NaN), the global prefix holds a WEBP-quality
    entry and a TIFF-quality entry, the WEBP entry directly in front of the
    TIFF entry; only the metadata entry can be in front of them, and no
    other entry carries their labels. *)
Theorem C4_webp_in_front_of_tiff (args : Args) (q : Queue.t) :
  truthy (arg args "quality") = true →
  ∃ back : Queue.t,
    let front := if withMetadata_trigger args then [withMetadata_entry] else [] in
    exec (global_options args) q
      = front ++ webp_entry args :: tiff_entry args :: back ++ q ∧
    global_prefix args = front ++ webp_entry args :: tiff_entry args :: back ∧
    exec (global_options args) q !! (length front) = Some (webp_entry args) ∧
    exec (global_options args) q !! (S (length front)) = Some (tiff_entry args) ∧
    ("webp" ∉ Queue.labels back) ∧ ("tiff" ∉ Queue.labels back).
Proof.
  intros Hq.
  exists ((if sequentialRead_trigger args then [sequentialRead_entry] else [])
          ++ (if png_trigger args then [png_entry args] else [])
          ++ (if limitInputPixels_trigger args
              then [limitInputPixels_entry args] else [])
          ++ (if jpeg_trigger args then [jpeg_entry args] else [])
          ++ (if format_trigger args then [format_entry args] else [])).
  rewrite global_options_prepends, global_prefix_eq.
  change (quality_trigger args) with (truthy (arg args "quality")). rewrite Hq.
  generalize (webp_entry args) (tiff_entry args). intros webp tiff.
  split_and!.
  - by rewrite <- !app_assoc.
  - done.
  - by destruct (withMetadata_trigger args).
  - by destruct (withMetadata_trigger args).
  - destruct (sequentialRead_trigger args), (png_trigger args),
      (limitInputPixels_trigger args), (jpeg_trigger args),
      (format_trigger args); compute_done.
  - destruct (sequentialRead_trigger args), (png_trigger args),
      (limitInputPixels_trigger args), (jpeg_trigger args),
      (format_trigger args); compute_done.
Qed.

(** C4 at work: quality 90 with the metadata toggle. *)
Lemma C4_webp_in_front_of_tiff_witness :
  let args : Args := <["withMetadata" := VBool true]> {["quality" := VNum 90]} in
  truthy (arg args "quality") = true ∧
  exec (global_options args) [] !! 1 = Some (webp_entry args) ∧
  exec (global_options args) [] !! 2 = Some (tiff_entry args).
Proof.
  intros args.
  assert (Hq : truthy (arg args "quality") = true) by reflexivity.
  destruct (C4_webp_in_front_of_tiff args [] Hq) as (back & _ & _ & Hw & Ht & _).
  split_and!; [exact Hq | exact Hw | exact Ht].
Defined.

(** ** C5: [optimise] as a shorthand *)

(** C5: take resolved arguments in which none of optimise, optimiseScans,
    overshootDeringing and trellisQuantisation is set.  Supplying optimise,
    or supplying the three others instead, builds a JPEG entry in both
    cases, and the two entries pass the same parameters to the engine. *)
Theorem C5_optimise_shorthand (base : Args) :
  Resolver.not_supplied base "optimise" →
  Resolver.not_supplied base "optimiseScans" →
  Resolver.not_supplied base "overshootDeringing" →
  Resolver.not_supplied base "trellisQuantisation" →
  let with_optimise : Args := <["optimise" := VBool true]> base in
  let with_three : Args :=
    <["optimiseScans" := VBool true]>
      (<["overshootDeringing" := VBool true]>
         (<["trellisQuantisation" := VBool true]> base)) in
  jpeg_options with_optimise = jpeg_options with_three ∧
  jpeg_entry with_optimise ∈ global_prefix with_optimise ∧
  jpeg_entry with_three ∈ global_prefix with_three ∧
  ∀ (H : Type) (engine : Sharp H) (sharp : H),
    call (jpeg_entry with_optimise).2 sharp = call (jpeg_entry with_three).2 sharp.
Proof.
  intros Ho%not_supplied_falsy _ _ _ with_optimise with_three.
  assert (Heq : jpeg_options with_optimise = jpeg_options with_three).
  { unfold jpeg_options, with_optimise, with_three. read_args.
    by rewrite !(logical_or_falsy_l _ _ Ho). }
  assert (Hin : ∀ args, jpeg_trigger args = true →
                jpeg_entry args ∈ global_prefix args).
  { intros args Ht. rewrite global_prefix_eq, Ht.
    rewrite !elem_of_app. do 5 right. left. by apply list_elem_of_singleton. }
  split_and!.
  - exact Heq.
  - apply Hin. rewrite jpeg_trigger_alt. unfold with_optimise. read_args.
    simpl. by rewrite !orb_true_r.
  - apply Hin. rewrite jpeg_trigger_alt. unfold with_three. read_args.
    simpl. by rewrite !orb_true_r.
  - intros H ? sharp. unfold jpeg_entry. simpl. by rewrite Heq.
Qed.

(** C5 at work: progressive and quality 90, and neither optimise nor any of
    the three flags it stands for. *)
Lemma C5_optimise_shorthand_witness :
  let base : Args := <["progressive" := VBool true]> {["quality" := VNum 90]} in
  jpeg_options (<["optimise" := VBool true]> base)
  = jpeg_options
      (<["optimiseScans" := VBool true]>
         (<["overshootDeringing" := VBool true]>
            (<["trellisQuantisation" := VBool true]> base))).
Proof.
  intros base.
  exact (proj1 (C5_optimise_shorthand base eq_refl eq_refl eq_refl eq_refl)).
Defined.

(** ** C6: the pixel limit is tested for presence *)

(** C6: the limitInputPixels entry is in the global prefix if and only if
    the resolved arguments hold a limitInputPixels value, that is the field
    is not undefined; an explicit 0 does add the entry. *)
Theorem C6_limitInputPixels_presence (args : Args) :
  (limitInputPixels_entry args ∈ global_prefix args
   ↔ arg args "limitInputPixels" ≠ VUndefined) ∧
  ("limitInputPixels" ∈ Queue.labels (global_prefix args)
   ↔ arg args "limitInputPixels" ≠ VUndefined) ∧
  (arg args "limitInputPixels" = VNum 0 →
   ("limitInputPixels", LimitInputPixels (VNum 0)) ∈ global_prefix args).
Proof.
  assert (Htrigger : limitInputPixels_trigger args = true
                  ↔ arg args "limitInputPixels" ≠ VUndefined).
  { unfold limitInputPixels_trigger.
    destruct (arg args "limitInputPixels"); simpl; split; done. }
  assert (Hentry : limitInputPixels_entry args ∈ global_prefix args
                   ↔ limitInputPixels_trigger args = true).
  { split.
    - intros Hin. apply limitInputPixels_in_global_prefix.
      unfold Queue.labels.
      by apply (list_elem_of_fmap_2 fst) in Hin.
    - intros Ht. rewrite global_prefix_eq, Ht.
      rewrite !elem_of_app. do 4 right. left. by apply list_elem_of_singleton. }
  split_and!.
  - by rewrite Hentry.
  - by rewrite limitInputPixels_in_global_prefix.
  - intros H0.
    assert (Hin : limitInputPixels_entry args ∈ global_prefix args).
    { apply Hentry, Htrigger. by rewrite H0. }
    unfold limitInputPixels_entry in Hin. by rewrite H0 in Hin.
Qed.

(** C6 at work: a pixel limit of 0. *)
Lemma C6_limitInputPixels_presence_witness :
  let args : Args := {["limitInputPixels" := VNum 0]} in
  arg args "limitInputPixels" = VNum 0 ∧
  ("limitInputPixels", LimitInputPixels (VNum 0)) ∈ global_prefix args.
Proof.
  intros args.
  assert (H0 : arg args "limitInputPixels" = VNum 0) by reflexivity.
  split; [exact H0|].
  exact (proj2 (proj2 (C6_limitInputPixels_presence args)) H0).
Defined.

(** ** C7: an input option given without a path *)

(** C7: when the resolved arguments hold an input field that is an empty
    list, the callback reports the hard error "Not enough arguments
    following: i, input", whatever the parser reported; when the input
    field is absent, or is a list with a path in it, the callback passes on
    what the parser reported and adds no error of its own. *)
Theorem C7_empty_input_is_an_error
    (err : option Error) (args : Args) (q : Queue.t) :
  (arg args "input" = VArr [] →
   eval (handle_arguments err (Some args)) q
   = Some (MkError "Not enough arguments following: i, input")) ∧
  (arg args "input" = VUndefined →
   eval (handle_arguments err (Some args)) q = err) ∧
  (∀ path paths, arg args "input" = VArr (path :: paths) →
   eval (handle_arguments err (Some args)) q = err).
Proof.
  rewrite handle_arguments_eval. unfold input_is_empty.
  split_and!.
  - by intros ->.
  - by intros ->.
  - by intros path paths ->.
Qed.

(** C7 at work: an input given without a path, and no input at all. *)
Lemma C7_empty_input_is_an_error_witness :
  let given_empty : Args := <["input" := VArr []]> {["output" := VStr "./out"]} in
  let not_given : Args := {["quality" := VNum 90]} in
  eval (handle_arguments None (Some given_empty)) []
  = Some (MkError "Not enough arguments following: i, input") ∧
  eval (handle_arguments None (Some not_given)) [] = None.
Proof.
  intros given_empty not_given. split.
  - exact (proj1 (C7_empty_input_is_an_error None given_empty []) eq_refl).
  - exact (proj1 (proj2 (C7_empty_input_is_an_error None not_given [])) eq_refl).
Defined.

(** ** C8: the [implies] declarations *)

Lemma unmet_implication_fails
    (opts : list (string * Options.Descriptor)) (args : Args) (a b : string) :
  (a, b) ∈ Resolver.unmet_implications opts args →
  ∃ e, Resolver.check_implications opts args
       = Resolver.Failed Resolver.ValidationError e.
Proof.
  unfold Resolver.check_implications.
  destruct (Resolver.unmet_implications opts args) as [|[a' b'] rest].
  - by intros ?%elem_of_nil.
  - intros _. by eexists.
Qed.

(** C8: the option table declares two implications, input implies output
    and optimiseScans implies progressive.  For every option A of the table
    declaring [implies: B], resolved arguments in which A is supplied and B
    is not are rejected with a ValidationError and no Resolved Arguments;
    so optimiseScans without progressive is rejected, and so is input
    without output. *)
Theorem C8_implies_is_enforced (IS_TEXT_TERMINAL : bool) (args : Args) :
  let opts := Options.options IS_TEXT_TERMINAL in
  let rejected :=
    ∃ e, Resolver.check_implications opts args
         = Resolver.Failed Resolver.ValidationError e in
  omap (λ '(a, d), (a,.) <$> Options.implies d) opts
    = [("input", "output"); ("optimiseScans", "progressive")] ∧
  (∀ a d b,
     (a, d) ∈ opts → Options.implies d = Some b →
     Resolver.supplied args a = true → Resolver.supplied args b = false →
     rejected) ∧
  (Resolver.supplied args "optimiseScans" = true →
   Resolver.supplied args "progressive" = false → rejected) ∧
  (Resolver.supplied args "input" = true →
   Resolver.supplied args "output" = false → rejected).
Proof.
  intros opts rejected.
  assert (Hgen : ∀ a d b,
     (a, d) ∈ opts → Options.implies d = Some b →
     Resolver.supplied args a = true → Resolver.supplied args b = false →
     rejected).
  { intros a d b Hin Himp Ha Hb.
    apply (unmet_implication_fails opts args a b).
    apply list_elem_of_omap. exists (a, d). split; [done|].
    simpl. by rewrite Himp, Ha, Hb. }
  split_and!.
  - reflexivity.
  - exact Hgen.
  - intros Ha Hb.
    eapply (Hgen "optimiseScans" _ "progressive"); 
      [ unfold opts, Options.options; do 11 apply list_elem_of_further;
        apply list_elem_of_here
      | reflexivity | done | done ].
  - intros Ha Hb.
    eapply (Hgen "input" _ "output");
      [ unfold opts, Options.options; do 2 apply list_elem_of_further;
        apply list_elem_of_here
      | reflexivity | done | done ].
Qed.

(** C8 at work: optimiseScans alone, and input alone. *)
Lemma C8_implies_is_enforced_witness :
  let args : Args := {["optimiseScans" := VBool true]} in
  let args' : Args := {["input" := VArr ["in.jpg"]]} in
  (∃ e, Resolver.check_implications (Options.options true) args
        = Resolver.Failed Resolver.ValidationError e) ∧
  (∃ e, Resolver.check_implications (Options.options true) args'
        = Resolver.Failed Resolver.ValidationError e).
Proof.
  intros args args'. split.
  - exact (proj1 (proj2 (proj2 (C8_implies_is_enforced true args)))
             eq_refl eq_refl).
  - exact (proj2 (proj2 (proj2 (C8_implies_is_enforced true args')))
             eq_refl eq_refl).
Defined.

(** ** C9: running the construction twice *)

(** C9, as stated, fails.  The queue is one object shared by every run in
    the process: a second run on the same resolved arguments prepends the
    prefix once more, so the queues after the first and after the second
    run differ in length. *)
Lemma C9_counterexample :
  let args : Args := {["quality" := VNum 90]} in
  let first := exec (handle_arguments None (Some args)) [] in
  let second := exec (handle_arguments None (Some args)) first in
  Queue.labels first = ["webp"; "tiff"; "jpeg"] ∧
  Queue.labels second = ["webp"; "tiff"; "jpeg"; "webp"; "tiff"; "jpeg"] ∧
  length first ≠ length second.
Proof. split_and!; [reflexivity | reflexivity | discriminate]. Qed.

(** C9 (amended): the entries a run prepends are a function of the
    resolved arguments alone: every run on the same resolved arguments puts
    the same prefix, in the same order, in front of whatever the queue
    holds when the run starts, whatever error is reported with them.  Two
    runs that start from the same queue contents end with identical
    queues; a second run on the queue left by the first ends with the
    prefix twice. *)
Theorem C9_same_prefix_every_run
    (err err' : option Error) (args : Args) (q q' : Queue.t) :
  let run e := exec (handle_arguments e (Some args)) in
  run err q = global_prefix args ++ q ∧
  run err' q' = global_prefix args ++ q' ∧
  length (run err q) = length (global_prefix args) + length q ∧
  run err' (run err q) = global_prefix args ++ global_prefix args ++ q.
Proof.
  intros run. unfold run. rewrite !handle_arguments_exec.
  split_and!; try done. apply length_app.
Qed.

(** ** C10: quality and compression level are tested for truthiness *)

(** C10: with an explicit quality of 0 the prefix has no TIFF and no WEBP
    entry, and no JPEG entry either unless another JPEG trigger is truthy;
    with an explicit compressionLevel of 0 the prefix has no PNG entry
    unless another PNG trigger is truthy; the limitInputPixels entry, tested
    on presence, is there with an explicit 0. *)
Theorem C10_zero_is_falsy (args : Args) :
  (arg args "quality" = VNum 0 →
   ("tiff" ∉ Queue.labels (global_prefix args)) ∧
   ("webp" ∉ Queue.labels (global_prefix args)) ∧
   ((∀ k, k ∈ ["chromaSubsampling"; "optimise"; "optimiseScans";
               "overshootDeringing"; "progressive"; "trellisQuantisation"] →
          truthy (arg args k) = false) →
    "jpeg" ∉ Queue.labels (global_prefix args))) ∧
  (arg args "compressionLevel" = VNum 0 →
   (∀ k, k ∈ ["adaptiveFiltering"; "progressive"] →
         truthy (arg args k) = false) →
   "png" ∉ Queue.labels (global_prefix args)) ∧
  (arg args "limitInputPixels" = VNum 0 →
   "limitInputPixels" ∈ Queue.labels (global_prefix args)).
Proof.
  split_and!.
  - intros Hq.
    assert (Htrigger : quality_trigger args = false)
      by (unfold quality_trigger; by rewrite Hq).
    split_and!.
    + rewrite tiff_in_global_prefix, Htrigger. discriminate.
    + rewrite webp_in_global_prefix, Htrigger. discriminate.
    + intros Hothers. rewrite jpeg_in_global_prefix, jpeg_trigger_alt, Hq.
      rewrite !Hothers by compute_done. discriminate.
  - intros Hc Hothers. rewrite png_in_global_prefix, png_trigger_alt, Hc.
    rewrite !Hothers by compute_done. discriminate.
  - intros Hl. rewrite limitInputPixels_in_global_prefix.
    unfold limitInputPixels_trigger. by rewrite Hl.
Qed.

(** C10 at work: quality, compression level and pixel limit all 0. *)
Lemma C10_zero_is_falsy_witness :
  let args : Args :=
    <["quality" := VNum 0]>
      (<["compressionLevel" := VNum 0]> {["limitInputPixels" := VNum 0]}) in
  ("tiff" ∉ Queue.labels (global_prefix args)) ∧
  ("webp" ∉ Queue.labels (global_prefix args)) ∧
  ("jpeg" ∉ Queue.labels (global_prefix args)) ∧
  ("png" ∉ Queue.labels (global_prefix args)) ∧
  "limitInputPixels" ∈ Queue.labels (global_prefix args).
Proof.
  intros args.
  destruct (C10_zero_is_falsy args) as (Hq & Hc & Hl).
  destruct (Hq eq_refl) as (Ht & Hw & Hj).
  assert (Hjpeg : ∀ k, k ∈ ["chromaSubsampling"; "optimise"; "optimiseScans";
               "overshootDeringing"; "progressive"; "trellisQuantisation"] →
          truthy (arg args k) = false).
  { intros k Hk.
    repeat (apply elem_of_cons in Hk as [-> | Hk]; [reflexivity|]).
    by apply elem_of_nil in Hk. }
  assert (Hpng : ∀ k, k ∈ ["adaptiveFiltering"; "progressive"] →
          truthy (arg args k) = false).
  { intros k Hk.
    repeat (apply elem_of_cons in Hk as [-> | Hk]; [reflexivity|]).
    by apply elem_of_nil in Hk. }
  split_and!;
    [exact Ht | exact Hw | exact (Hj Hjpeg) | exact (Hc eq_refl Hpng)
    | exact (Hl eq_refl)].
Defined.

(* ===================================================================== *)
(** * Further properties of the code *)
(* ===================================================================== *)

(** ** The option table *)

(** X1: whether or not the process is attached to a terminal, the names
    declared for options (the keys of the table, their aliases, [help],
    [version] and their aliases) are pairwise distinct; the options
    demanded are [input] and [output] on a terminal and none otherwise;
    every [implies] names a key of the table that declares no implication
    of its own; and every property the callback reads is a key of the
    table, [output] being the one key it never reads. *)
Theorem X1_option_table_is_consistent (IS_TEXT_TERMINAL : bool) :
  NoDup (Schema.declared IS_TEXT_TERMINAL) ∧
  Schema.demanded IS_TEXT_TERMINAL
    = (if IS_TEXT_TERMINAL then ["input"; "output"] else []) ∧
  (∀ a b, (a, b) ∈ Schema.implications IS_TEXT_TERMINAL →
     b ∈ (Options.options IS_TEXT_TERMINAL).*1 ∧
     b ∉ (Schema.implications IS_TEXT_TERMINAL).*1) ∧
  (∀ k, k ∈ (Options.options IS_TEXT_TERMINAL).*1 →
     k ∈ Schema.inspected ↔ k ≠ "output") ∧
  Schema.inspected ⊆ (Options.options IS_TEXT_TERMINAL).*1.
Proof.
  split_and!.
  - destruct IS_TEXT_TERMINAL; compute_done.
  - by destruct IS_TEXT_TERMINAL.
  - intros a b Hin.
    assert (Himp : Schema.implications IS_TEXT_TERMINAL
                   = [("input", "output"); ("optimiseScans", "progressive")])
      by (by destruct IS_TEXT_TERMINAL).
    rewrite Himp in *.
    apply elem_of_cons in Hin as [[= -> ->] | Hin];
      [|apply list_elem_of_singleton in Hin as [= -> ->]];
      destruct IS_TEXT_TERMINAL; split; compute_done.
  - intros k Hk.
    assert (Hnames : (Options.options IS_TEXT_TERMINAL).*1 = Options.names)
      by (by destruct IS_TEXT_TERMINAL).
    rewrite Hnames in Hk. unfold Options.names in Hk. simpl in Hk.
    repeat (apply elem_of_cons in Hk as [-> | Hk]; [split; compute_done|]).
    by apply elem_of_nil in Hk.
  - intros k Hk. unfold Schema.inspected, Schema.triggering in Hk. simpl in Hk.
    repeat (apply elem_of_cons in Hk as [-> | Hk];
            [destruct IS_TEXT_TERMINAL; compute_done|]).
    by apply elem_of_nil in Hk.
Qed.

(** X1 at work on a terminal. *)
Lemma X1_option_table_is_consistent_witness :
  ("optimiseScans", "progressive") ∈ Schema.implications true ∧
  "progressive" ∈ (Options.options true).*1 ∧
  "progressive" ∉ (Schema.implications true).*1.
Proof.
  assert (Hin : ("optimiseScans", "progressive") ∈ Schema.implications true)
    by (simpl; apply list_elem_of_further, list_elem_of_here).
  split; [exact Hin|].
  exact (proj1 (proj2 (proj2 (X1_option_table_is_consistent true))) _ _ Hin).
Defined.

(** ** What the callback reads *)

Lemma agree_on_arg (ks : list string) (args args' : Args) (k : string) :
  Schema.agree_on ks args args' → bool_decide (k ∈ ks) = true →
  arg args k = arg args' k.
Proof. intros H Hk. apply H. by apply bool_decide_eq_true in Hk. Qed.

(** Replace every read of [args] by the read of [args'] it agrees with. *)
Ltac reads_agree H args :=
  repeat match goal with
         | |- context [arg args ?k] =>
             rewrite (agree_on_arg _ args _ k H) by reflexivity
         end.

Lemma agree_on_handle_arguments
    (err : option Error) (args args' : Args) (q : Queue.t) :
  Schema.agree_on Schema.inspected args args' →
  handle_arguments err (Some args) q = handle_arguments err (Some args') q.
Proof.
  intros H.
  unfold handle_arguments, input_is_empty, global_options,
    format_trigger, jpeg_trigger, limitInputPixels_trigger, png_trigger,
    sequentialRead_trigger, quality_trigger, withMetadata_trigger,
    format_entry, jpeg_entry, limitInputPixels_entry, png_entry, tiff_entry,
    webp_entry, jpeg_options, png_options, quality_options.
  reads_agree H args. reflexivity.
Qed.

(** X2: what the callback reports and what it puts on the queue depend
    only on the fourteen fields of the arguments that it reads.  Two
    arguments objects that agree on them are treated alike; so writing any
    other property (an alias, [output], the positional arguments) or
    removing it changes neither the error passed on nor the queue. *)
Theorem X2_only_the_inspected_fields_matter
    (err : option Error) (args : Args) (q : Queue.t) :
  (∀ args' : Args,
     Schema.agree_on Schema.inspected args args' →
     handle_arguments err (Some args') q = handle_arguments err (Some args) q) ∧
  (∀ k v, k ∉ Schema.inspected →
     handle_arguments err (Some (<[k := v]> args)) q
     = handle_arguments err (Some args) q) ∧
  (∀ k, k ∉ Schema.inspected →
     handle_arguments err (Some (delete k args)) q
     = handle_arguments err (Some args) q).
Proof.
  split_and!.
  - intros args' H. symmetry. by apply agree_on_handle_arguments.
  - intros k v Hk. symmetry. apply agree_on_handle_arguments.
    intros k' Hk'. rewrite arg_insert_ne; [done|]. by intros ->.
  - intros k Hk. symmetry. apply agree_on_handle_arguments.
    intros k' Hk'. unfold arg. rewrite lookup_delete_ne; [done|]. by intros ->.
Qed.

(** X2 at work: the alias [q] and the output directory are not read. *)
Lemma X2_only_the_inspected_fields_matter_witness :
  let args : Args := {["quality" := VNum 90]} in
  handle_arguments None (Some (<["q" := VNum 90]> args)) []
  = handle_arguments None (Some args) [] ∧
  handle_arguments None (Some (<["output" := VStr "./out"]> args)) []
  = handle_arguments None (Some args) [].
Proof.
  intros args.
  destruct (X2_only_the_inspected_fields_matter None args []) as (_ & Hins & _).
  split.
  - apply (Hins "q" (VNum 90)). compute_done.
  - apply (Hins "output" (VStr "./out")). compute_done.
Defined.

(** ** The shape of the prefix *)

(** X3: one run never prepends two entries with the same label, and never
    more than eight entries; the number of entries prepended is the number
    of conditions that hold, the quality condition counting for two. *)
Theorem X3_prefix_labels_are_distinct (args : Args) (q : Queue.t) :
  NoDup (Queue.labels (global_prefix args)) ∧
  length (exec (global_options args) q)
    = length (filter (λ t, t.2 = true) (triggers args)) + length q ∧
  length (exec (global_options args) q) ≤ 8 + length q.
Proof.
  rewrite global_options_prepends, length_app.
  assert (Hlen : length (global_prefix args)
                 = length (filter (λ t, t.2 = true) (triggers args))).
  { transitivity (length (Queue.labels (global_prefix args))).
    - unfold Queue.labels. by rewrite length_fmap.
    - by rewrite global_prefix_labels, length_reverse, length_fmap. }
  split_and!.
  - rewrite global_prefix_labels. unfold triggers.
    split_triggers args; compute_done.
  - by rewrite Hlen.
  - rewrite Hlen. apply Nat.add_le_mono_r.
    etrans; [apply length_filter|]. reflexivity.
Qed.

Lemma global_prefix_nil (args : Args) :
  global_prefix args = [] ↔
    format_trigger args = false ∧ jpeg_trigger args = false ∧
    limitInputPixels_trigger args = false ∧ png_trigger args = false ∧
    sequentialRead_trigger args = false ∧ quality_trigger args = false ∧
    withMetadata_trigger args = false.
Proof.
  rewrite global_prefix_eq.
  generalize (format_entry args) (jpeg_entry args) (limitInputPixels_entry args)
    (png_entry args) (tiff_entry args) (webp_entry args).
  intros e1 e2 e3 e4 e5 e6.
  split_triggers args; simpl; split; try done; intros H; by destruct_and?.
Qed.

Lemma nothing_triggers (args : Args) :
  (format_trigger args = false ∧ jpeg_trigger args = false ∧
   limitInputPixels_trigger args = false ∧ png_trigger args = false ∧
   sequentialRead_trigger args = false ∧ quality_trigger args = false ∧
   withMetadata_trigger args = false)
  ↔ (∀ k, k ∈ Schema.triggering → truthy (arg args k) = false)
    ∧ arg args "limitInputPixels" = VUndefined.
Proof.
  rewrite jpeg_trigger_alt, png_trigger_alt.
  unfold format_trigger, limitInputPixels_trigger, sequentialRead_trigger,
    quality_trigger, withMetadata_trigger.
  split.
  - intros (Hf & Hj & Hl & Hp & Hs & Hq & Hm).
    rewrite !orb_false_iff in Hj. rewrite !orb_false_iff in Hp.
    destruct_and?. split.
    + intros k Hk. unfold Schema.triggering in Hk.
      repeat (apply elem_of_cons in Hk as [-> | Hk]; [done|]).
      by apply elem_of_nil in Hk.
    + by destruct (arg args "limitInputPixels").
  - intros [Hk Hl]. rewrite Hl.
    rewrite !Hk by compute_done. done.
Qed.

(** X4: a run leaves the queue exactly as it found it if and only if none
    of the twelve options tested for truthiness is truthy and
    limitInputPixels is undefined; in particular [input] and [output] put
    nothing on the queue. *)
Theorem X4_queue_unchanged_iff_nothing_triggers (args : Args) (q : Queue.t) :
  exec (global_options args) q = q ↔
    (∀ k, k ∈ Schema.triggering → truthy (arg args k) = false)
    ∧ arg args "limitInputPixels" = VUndefined.
Proof.
  rewrite <- nothing_triggers, <- global_prefix_nil, global_options_prepends.
  split.
  - intros H. apply (f_equal length) in H. rewrite length_app in H.
    apply length_zero_iff_nil. lia.
  - by intros ->.
Qed.

(** X4 at work: a command line with an input and an output only. *)
Lemma X4_queue_unchanged_iff_nothing_triggers_witness :
  let args : Args := <["input" := VArr ["in.jpg"]]> {["output" := VStr "./out"]} in
  exec (global_options args) [] = [].
Proof.
  intros args. apply X4_queue_unchanged_iff_nothing_triggers. split.
  - intros k Hk. unfold Schema.triggering in Hk.
    repeat (apply elem_of_cons in Hk as [-> | Hk]; [reflexivity|]).
    by apply elem_of_nil in Hk.
  - reflexivity.
Defined.




(** ** How the conditions depend on one another *)

Lemma entry_in_prefix_segments
    (A B C D E F G : Queue.t) (e : Queue.Entry) :
  e ∈ A ∨ e ∈ B ∨ e ∈ C ∨ e ∈ D ∨ e ∈ E ∨ e ∈ F ∨ e ∈ G →
  e ∈ A ++ B ++ C ++ D ++ E ++ F ++ G.
Proof. rewrite !elem_of_app. tauto. Qed.

(** X6: the TIFF and WEBP entries never come without the JPEG entry, the
    condition of the former being one of the conditions of the latter; and
    a truthy progressive puts both the PNG and the JPEG entry on the
    queue, each carrying the progressive value, the PNG entry in front of
    the JPEG entry with at most the limitInputPixels entry between them. *)
Theorem X6_quality_and_progressive_reach_jpeg (args : Args) :
  ("tiff" ∈ Queue.labels (global_prefix args)
   → jpeg_entry args ∈ global_prefix args
     ∧ jpeg_quality (jpeg_options args) = arg args "quality") ∧
  ("webp" ∈ Queue.labels (global_prefix args)
   → jpeg_entry args ∈ global_prefix args) ∧
  (truthy (arg args "progressive") = true →
   jpeg_progressive (jpeg_options args) = arg args "progressive" ∧
   png_progressive (png_options args) = arg args "progressive" ∧
   ∃ front back : Queue.t,
     global_prefix args
     = front ++ png_entry args
         :: (if limitInputPixels_trigger args
             then [limitInputPixels_entry args] else [])
         ++ jpeg_entry args :: back).
Proof.
  assert (Hjpeg : jpeg_trigger args = true → jpeg_entry args ∈ global_prefix args).
  { intros Ht. rewrite global_prefix_eq, Ht.
    apply entry_in_prefix_segments. do 5 right. left.
    by apply list_elem_of_singleton. }
  assert (Hq : quality_trigger args = true → jpeg_trigger args = true).
  { unfold quality_trigger. rewrite jpeg_trigger_alt. intros ->.
    by rewrite !orb_true_r. }
  split_and!.
  - intros Ht%tiff_in_global_prefix. split; [by apply Hjpeg, Hq | done].
  - intros Ht%webp_in_global_prefix. by apply Hjpeg, Hq.
  - intros Hp. split_and!; [done..|].
    exists ((if withMetadata_trigger args then [withMetadata_entry] else [])
            ++ (if quality_trigger args
                then [webp_entry args; tiff_entry args] else [])
            ++ (if sequentialRead_trigger args then [sequentialRead_entry] else [])),
           (if format_trigger args then [format_entry args] else []).
    rewrite global_prefix_eq.
    assert (Hj : jpeg_trigger args = true)
      by (rewrite jpeg_trigger_alt, Hp; by rewrite !orb_true_r).
    assert (Hpng : png_trigger args = true)
      by (rewrite png_trigger_alt, Hp; by rewrite !orb_true_r).
    rewrite Hj, Hpng. by rewrite <- !app_assoc.
Qed.

(** X6 at work: progressive alone. *)
Lemma X6_quality_and_progressive_reach_jpeg_witness :
  let args : Args := {["progressive" := VBool true]} in
  ∃ front back : Queue.t,
    global_prefix args
    = front ++ png_entry args
        :: (if limitInputPixels_trigger args
            then [limitInputPixels_entry args] else [])
        ++ jpeg_entry args :: back.
Proof.
  intros args.
  exact (proj2 (proj2 (proj2 (proj2
           (X6_quality_and_progressive_reach_jpeg args)) eq_refl))).
Defined.

(** X7: once optimise is truthy, the three flags it stands for have no say
    in the JPEG parameters: whatever value is written to optimiseScans,
    overshootDeringing or trellisQuantisation, an explicit [false]
    included, the three parameters pass the value of optimise and the JPEG
    entry is on the queue.  When optimise is falsy the three parameters
    are the values of the individual flags. *)
Theorem X7_optimise_overrides_the_individual_flags
    (args : Args) (k : string) (v : value) :
  k ∈ ["optimiseScans"; "overshootDeringing"; "trellisQuantisation"] →
  (truthy (arg args "optimise") = true →
   jpeg_options (<[k := v]> args) = jpeg_options args ∧
   jpeg_optimiseScans (jpeg_options args) = arg args "optimise" ∧
   jpeg_overshootDeringing (jpeg_options args) = arg args "optimise" ∧
   jpeg_trellisQuantisation (jpeg_options args) = arg args "optimise" ∧
   jpeg_entry (<[k := v]> args) ∈ global_prefix (<[k := v]> args)) ∧
  (truthy (arg args "optimise") = false →
   jpeg_optimiseScans (jpeg_options args) = arg args "optimiseScans" ∧
   jpeg_overshootDeringing (jpeg_options args) = arg args "overshootDeringing" ∧
   jpeg_trellisQuantisation (jpeg_options args) = arg args "trellisQuantisation").
Proof.
  intros Hk. split.
  - intros Ho.
    assert (Hsame : jpeg_options (<[k := v]> args) = jpeg_options args).
    { unfold jpeg_options.
      repeat (apply elem_of_cons in Hk as [-> | Hk];
              [read_args; by rewrite !(logical_or_truthy_l _ _ Ho)|]).
      by apply elem_of_nil in Hk. }
    split_and!; [done | by apply logical_or_truthy_l..|].
    assert (Hj : jpeg_trigger (<[k := v]> args) = true).
    { rewrite jpeg_trigger_alt.
      assert (Ho' : truthy (arg (<[k := v]> args) "optimise") = true).
      { repeat (apply elem_of_cons in Hk as [-> | Hk]; [by read_args|]).
        by apply elem_of_nil in Hk. }
      rewrite Ho'. by rewrite !orb_true_r. }
    rewrite global_prefix_eq, Hj.
    apply entry_in_prefix_segments. do 5 right. left.
    by apply list_elem_of_singleton.
  - intros Ho. split_and!; by apply logical_or_falsy_l.
Qed.

(** X7 at work: optimise with an explicit [false] for trellisQuantisation. *)
Lemma X7_optimise_overrides_the_individual_flags_witness :
  let args : Args := {["optimise" := VBool true]} in
  jpeg_options (<["trellisQuantisation" := VBool false]> args) = jpeg_options args ∧
  jpeg_trellisQuantisation
    (jpeg_options (<["trellisQuantisation" := VBool false]> args)) = VBool true.
Proof.
  intros args.
  assert (Hk : "trellisQuantisation"
               ∈ ["optimiseScans"; "overshootDeringing"; "trellisQuantisation"])
    by (do 2 apply list_elem_of_further; apply list_elem_of_here).
  destruct (X7_optimise_overrides_the_individual_flags args
              "trellisQuantisation" (VBool false) Hk) as [Hon _].
  destruct (Hon eq_refl) as (Hsame & _ & _ & Ht & _).
  split; [exact Hsame|]. rewrite Hsame. exact Ht.
Defined.

(** ** The error passed on *)

Lemma input_is_empty_iff (args : Args) :
  input_is_empty args = true ↔ arg args "input" = VArr [].
Proof.
  unfold input_is_empty, length_is_zero, length_of.
  destruct (arg args "input") as [| |[]| |[|c s]|[|x xs]];
    simpl; rewrite ?andb_false_r; split; done.
Qed.

(** X8: the callback never clears an error and adds one for one reason
    only.  No error is passed on exactly when the parser reported none and
    the input field is not an empty list (no arguments object, an absent
    input, a string, a list with a path in it all pass); when the input
    field is an empty list the error passed on is the input error, and an
    error the parser reported with it is replaced. *)
Theorem X8_error_passed_on
    (err : option Error) (args : option Args) (q : Queue.t) :
  let input_error := MkError "Not enough arguments following: i, input" in
  (eval (handle_arguments err args) q = None
   ↔ err = None ∧ ∀ a, args = Some a → arg a "input" ≠ VArr []) ∧
  (is_Some err → is_Some (eval (handle_arguments err args) q)) ∧
  (∀ a, args = Some a → arg a "input" = VArr [] →
        eval (handle_arguments err args) q = Some input_error) ∧
  (∀ e, eval (handle_arguments err args) q = Some e →
        err = Some e ∨ e = input_error).
Proof.
  intros input_error. destruct args as [a|].
  - rewrite handle_arguments_eval.
    destruct (input_is_empty a) eqn:Hempty.
    + apply input_is_empty_iff in Hempty. split_and!.
      * split; [done|]. intros [_ H]. by destruct (H a).
      * by eexists.
      * done.
      * intros e [= <-]. by right.
    + assert (Hne : arg a "input" ≠ VArr []).
      { intros H%input_is_empty_iff. congruence. }
      split_and!.
      * split; [|by intros [-> _]]. intros ->. split; [done|].
        by intros a' [= <-].
      * done.
      * intros a' [= <-] H. by destruct Hne.
      * intros e ->. by left.
  - split_and!.
    + change (eval (handle_arguments err None) q) with err.
      split; [|by intros [-> _]]. intros ->. by split.
    + done.
    + done.
    + intros e He. by left.
Qed.

(** X8 at work: the parser reports an unknown argument and the input list
    is empty. *)
Lemma X8_error_passed_on_witness :
  let args : Args := {["input" := VArr []]} in
  let err := Some (MkError "Unknown argument: foo") in
  is_Some (eval (handle_arguments err (Some args)) []) ∧
  eval (handle_arguments err (Some args)) []
  = Some (MkError "Not enough arguments following: i, input").
Proof.
  intros args err.
  destruct (X8_error_passed_on err (Some args) []) as (_ & Hsome & Hempty & _).
  split.
  - exact (Hsome (ex_intro _ _ eq_refl)).
  - exact (Hempty args eq_refl eq_refl).
Defined.

(** ** The override and the parser *)

(** X9: take a parser that, for the command line [argv], runs the command
    handlers (the queue goes from [q] to [handlers q]) and then calls back
    once with [err], [args] and [output].  Then [parse] calls the user's
    callback with the error of the callback body, the same [args] and
    [output], on a queue that holds the global prefix in front of all that
    the handlers left, or just what the handlers left when there is no
    arguments object.  This holds with a context object and with the
    callback given in the place of the context, in which case the third
    argument is not used. *)
Theorem X9_parse_calls_back_behind_the_prefix {R Output : Type}
    (originalParse : list string → option Args → @Callback R Output → M R)
    (argv : list string) (context : option Args)
    (callback unused : @Callback R Output)
    (err : option Error) (args : option Args) (output : Output)
    (handlers : Queue.t → Queue.t) (q : Queue.t) :
  (∀ ctx cb q, originalParse argv ctx cb q = cb err args output (handlers q)) →
  let err' := eval (handle_arguments err args) (handlers q) in
  let q' := match args with
            | Some a => global_prefix a ++ handlers q
            | None => handlers q
            end in
  parse originalParse argv (IsObject context) callback q
    = callback err' args output q' ∧
  parse originalParse argv (IsFunction callback) unused q
    = callback err' args output q'.
Proof.
  intros Hparse err' q'.
  assert (Hbody : ∀ cb : @Callback R Output,
            (err ← handle_arguments err args; cb err args output) (handlers q)
            = cb err' args output q').
  { intros cb. unfold err', q', mbind, M_bind. destruct args as [a|].
    - pose proof (handle_arguments_exec err a (handlers q)) as Hq.
      unfold exec in Hq. unfold eval.
      destruct (handle_arguments err (Some a) (handlers q)) as [e qa].
      simpl in *. by subst qa.
    - reflexivity. }
  unfold parse. rewrite !Hparse. split; apply Hbody.
Qed.

(** X9 at work: the parser has run one handler, which appended an entry,
    and calls back with quality 90; the user's callback returns the error
    it is given. *)
Lemma X9_parse_calls_back_behind_the_prefix_witness :
  let args : Args := {["quality" := VNum 90]} in
  let handlers : Queue.t → Queue.t := Queue.push sequentialRead_entry in
  let originalParse : list string → option Args → @Callback (option Error) string
                      → M (option Error) :=
    λ argv ctx cb q, cb None (Some args) "" (handlers q) in
  let callback : @Callback (option Error) string := λ e _ _ q, (e, q) in
  parse originalParse ["-q"; "90"] (IsFunction callback) callback []
  = (None, [webp_entry args; tiff_entry args; jpeg_entry args; sequentialRead_entry]).
Proof.
  intros args handlers originalParse callback.
  exact (proj2 (X9_parse_calls_back_behind_the_prefix
                  originalParse ["-q"; "90"] None callback callback
                  None (Some args) "" handlers []
                  (λ _ _ _, eq_refl))).
Defined.

(** ** Supplying more options *)

Lemma global_prefix_label_segments (args : Args) :
  Queue.labels (global_prefix args) =
    (if withMetadata_trigger args then ["withMetadata"] else [])
    ++ (if quality_trigger args then ["webp"; "tiff"] else [])
    ++ (if sequentialRead_trigger args then ["sequentialRead"] else [])
    ++ (if png_trigger args then ["png"] else [])
    ++ (if limitInputPixels_trigger args then ["limitInputPixels"] else [])
    ++ (if jpeg_trigger args then ["jpeg"] else [])
    ++ (if format_trigger args then ["format"] else []).
Proof. rewrite global_prefix_eq. split_triggers args; reflexivity. Qed.

Lemma segment_sublist (b b' : bool) (l : list string) :
  (b = true → b' = true) →
  (if b then l else []) `sublist_of` (if b' then l else []).
Proof.
  destruct b, b'; intros H; try reflexivity.
  - by specialize (H eq_refl).
  - apply sublist_nil_l.
Qed.

(** X10: supplying more never takes an entry away.  When every option
    that is truthy in [args] is truthy in [args'], and limitInputPixels is
    defined in [args'] if it is in [args], the labels of the prefix built
    from [args] are among those of the prefix built from [args'], in the
    same relative order. *)
Theorem X10_more_options_keep_the_entries (args args' : Args) :
  (∀ k, k ∈ Schema.triggering →
        truthy (arg args k) = true → truthy (arg args' k) = true) →
  (arg args "limitInputPixels" ≠ VUndefined →
   arg args' "limitInputPixels" ≠ VUndefined) →
  Queue.labels (global_prefix args) `sublist_of` Queue.labels (global_prefix args').
Proof.
  intros Hk Hl.
  assert (Hkey : ∀ k, bool_decide (k ∈ Schema.triggering) = true →
                 truthy (arg args k) = true → truthy (arg args' k) = true).
  { intros k Hin. apply Hk. by apply bool_decide_eq_true in Hin. }
  rewrite !global_prefix_label_segments.
  repeat apply sublist_app; apply segment_sublist.
  - by apply Hkey.
  - by apply Hkey.
  - by apply Hkey.
  - rewrite !png_trigger_alt. intros H.
    repeat (apply orb_true_iff in H as [H | H]);
      apply Hkey in H; try reflexivity; rewrite H; by rewrite ?orb_true_r.
  - unfold limitInputPixels_trigger. intros H.
    destruct (arg args' "limitInputPixels"); try done.
    destruct Hl; [|done]. by destruct (arg args "limitInputPixels").
  - rewrite !jpeg_trigger_alt. intros H.
    repeat (apply orb_true_iff in H as [H | H]);
      apply Hkey in H; try reflexivity; rewrite H; by rewrite ?orb_true_r.
  - by apply Hkey.
Qed.

(** X10 at work: progressive added to quality 90. *)
Lemma X10_more_options_keep_the_entries_witness :
  let args : Args := {["quality" := VNum 90]} in
  let args' : Args := <["progressive" := VBool true]> args in
  Queue.labels (global_prefix args) `sublist_of` Queue.labels (global_prefix args').
Proof.
  intros args args'. apply X10_more_options_keep_the_entries.
  - intros k Hk. unfold Schema.triggering in Hk.
    repeat (apply elem_of_cons in Hk as [-> | Hk]; [vm_compute; by intros|]).
    by apply elem_of_nil in Hk.
  - intros H. by destruct H.
Defined.
